(** * Time Window Shrinker: a shallow embedding of [main.py]

    The program narrows a daily time window [A, B) by a fixed per-day step.
    Python [int] is embedded as [Z].  Python [float] is embedded as an exact
    rational ([Q]): the specification speaks of real values throughout, and
    every property below is stated over exact rational arithmetic.  Python
    exceptions are embedded in a sum type ([inl] an exception, [inr] a value).

    The file is organised as: the Python primitives the program relies on
    (module [Py]), the program itself in source order, the reference
    definitions taken from the specification (module [Spec]), and the
    theorems. *)

From Stdlib Require Import ZArith QArith Qround Qabs List String Ascii Bool Lia Lqa.
From Stdlib Require Import DecimalString.
Import ListNotations.

Local Open Scope string_scope.
Local Open Scope Z_scope.

(** ** Python primitives *)

Module Py.

(** The core raises [ValueError] only, and its message is what tells the
    failures apart; a float division raises [ZeroDivisionError] on a zero
    divisor. *)
Inductive exn : Type :=
| ValueError (msg : string)
| ZeroDivisionError (msg : string).

(** [str(e)] for an exception built from one message. *)
Definition str_of_exn (e : exn) : string :=
  match e with
  | ValueError msg => msg
  | ZeroDivisionError msg => msg
  end.

Definition result (A : Type) : Type := (exn + A)%type.

Definition ret {A : Type} (a : A) : result A := inr a.
Definition raise {A : Type} (e : exn) : result A := inl e.

Definition bind {A B : Type} (c : result A) (k : A -> result B) : result B :=
  match c with
  | inl e => inl e
  | inr a => k a
  end.

(** [int % int] and [int // int]: Python takes the sign of the divisor and
    rounds the quotient down, which is what [Z.modulo] and [Z.div] do. *)
Definition mod_ (x n : Z) : Z := x mod n.
Definition divmod (x n : Z) : Z * Z := (x / n, x mod n).

(** [x / y] on floats. *)
Definition truediv (x y : Q) : result Q :=
  if Qeq_bool y 0 then raise (ZeroDivisionError "float division by zero")
  else ret (x / y)%Q.

(** [math.floor] and [math.ceil] on a float return an [int]. *)
Definition floor (x : Q) : Z := Qfloor x.
Definition ceil (x : Q) : Z := Qceiling x.

(** [int(n)] on an [int] returns it; [int(x)] on a float truncates toward
    zero. *)
Definition int_of_int (n : Z) : Z := n.

Definition int_of_float (x : Q) : Z :=
  if Qle_bool 0 x then Qfloor x else Qceiling x.

(** [x // y] on floats: the floor of the quotient, as a float.  The
    program's only divisor is the literal 1. *)
Definition floordiv (x y : Q) : Q := inject_Z (Qfloor (x / y)).

(** [x % n] with a float [x] and a positive [n]: the result lies in
    [0, n). *)
Definition fmod (x : Q) (n : Z) : Q :=
  (x - inject_Z n * inject_Z (Qfloor (x / inject_Z n)))%Q.

(** The built-in [round(x)] with one argument: nearest integer, ties to
    the even neighbour. *)
Definition round (x : Q) : Z :=
  let f := Qfloor x in
  let r := (x - inject_Z f)%Q in
  match (r ?= 1 # 2)%Q with
  | Lt => f
  | Gt => f + 1
  | Eq => if Z.even f then f else f + 1
  end.

(** [range(lo, hi)]. *)
Definition range (lo hi : Z) : list Z :=
  List.map (fun i => lo + Z.of_nat i) (List.seq 0 (Z.to_nat (hi - lo))).

(** [str(n)] for an [int]. *)
Definition str (n : Z) : string := NilZero.string_of_int (Z.to_int n).

(** The format specification [02d]: sign-aware zero padding to width 2. *)
Definition fmt_02d (n : Z) : string :=
  if (0 <=? n) && (n <? 10) then "0" ++ str n else str n.

End Py.

Import Py.

(** ** The program *)

Definition DAY_MIN : Z := 24 * 60.

Definition round_half_away_from_zero (value : Q) : Z :=
  if Qle_bool 0 value
  then int_of_int (floor (value + (1 # 2)))
  else int_of_int (ceil (value - (1 # 2))).

Definition hhmm (minutes : Z) : string :=
  let minutes := mod_ minutes DAY_MIN in
  let '(h, m) := divmod minutes 60 in
  fmt_02d h ++ ":" ++ fmt_02d m.

Record ScheduleRow : Type := mkScheduleRow {
  day_id : Z;
  start_min : Z;
  end_min : Z
}.

Definition start_str (self : ScheduleRow) : string := hhmm (start_min self).
Definition end_str (self : ScheduleRow) : string := hhmm (end_min self).

Definition window_length (a_min b_min : Z) : Z :=
  let L := mod_ (b_min - a_min) DAY_MIN in
  L.

Definition compute_daily_step (a_min b_min days : Z) (finish_on_day : string)
  : result Q :=
  if days <=? 0 then raise (ValueError "'days' must be a positive integer")
  else
    let L := window_length a_min b_min in
    if L =? 0
    then raise (ValueError "Start and end times define an empty window (L=0)")
    else if String.eqb finish_on_day "inclusive" then
      if days =? 1 then ret 0%Q
      else truediv (inject_Z L) (2 * inject_Z (days - 1))%Q
    else if String.eqb finish_on_day "after-steps" then
      truediv (inject_Z L) (2 * inject_Z days)%Q
    else
      raise (ValueError "finish_on_day must be 'inclusive' or 'after-steps'").

(** The closure [_round] of [generate_schedule]; it captures [rounding]. *)
Definition _round (rounding : string) (x : Q) : result Z :=
  if String.eqb rounding "nearest" then ret (round_half_away_from_zero x)
  else if String.eqb rounding "floor" then ret (int_of_float (floordiv x 1))
  else if String.eqb rounding "ceil"
       then ret (int_of_float (- floordiv (- x) 1)%Q)
  else raise (ValueError "rounding must be 'nearest', 'floor', or 'ceil'").

(** The three real-valued intermediates of the loop body. *)
Definition offset (d : Z) (m : Q) : Q := (inject_Z (d - 1) * m)%Q.
Definition raw_start (a_min d : Z) (m : Q) : Q := (inject_Z a_min + offset d m)%Q.
Definition raw_end (b_min d : Z) (m : Q) : Q := (inject_Z b_min - offset d m)%Q.

(** One pass of the loop body: round both ends and build the row. *)
Definition make_row (rounding : string) (a_min b_min : Z) (m : Q) (d : Z)
  : result ScheduleRow :=
  bind (_round rounding (raw_start a_min d m)) (fun start =>
  bind (_round rounding (raw_end b_min d m)) (fun end_ =>
  ret (mkScheduleRow d start end_))).

(** [for d in ds: rows.append(...)], stopping at the first exception. *)
Fixpoint for_each (body : Z -> result ScheduleRow) (ds : list Z)
                  (rows : list ScheduleRow) : result (list ScheduleRow) :=
  match ds with
  | [] => ret rows
  | d :: ds' => bind (body d) (fun r => for_each body ds' (rows ++ [r]))
  end.

Definition generate_schedule (a_min b_min days : Z)
                             (finish_on_day rounding : string)
  : result (list ScheduleRow) :=
  bind (compute_daily_step a_min b_min days finish_on_day) (fun m =>
  let rows : list ScheduleRow := [] in
  if String.eqb finish_on_day "inclusive" then
    for_each (make_row rounding a_min b_min m) (range 1 (days + 1)) rows
  else
    for_each (make_row rounding a_min b_min m) (range 1 (days + 1)) rows).

(** The rows [write_csv] hands to the CSV writer, header first. *)
Definition write_csv (rows : list ScheduleRow) : list (list string) :=
  ["id"; "start"; "end"]
  :: List.map (fun r => [str (day_id r); start_str r; end_str r]) rows.

(** The parsed command line. *)
Record Args : Type := mkArgs {
  arg_start : Z;
  arg_end : Z;
  arg_days : Z;
  arg_finish_on_day : string;
  arg_rounding : string;
  arg_output : string
}.

(** What one run of [main] does: either [parser.error] (exit status 2) or
    the CSV records written, the lines printed, and status 0. *)
Inductive outcome : Type :=
| ParserError (msg : string)
| Done (csv : list (list string)) (stdout : list string) (status : Z).

(** The two summary values [main] computes after writing the file; the
    divisor there is the literal 2.0. *)
Definition collapse_min (start_ end_ : Z) : Q :=
  let L := window_length start_ end_ in
  fmod (inject_Z start_ + inject_Z L / 2)%Q DAY_MIN.

Definition collapse_hhmm (start_ end_ : Z) : string :=
  hhmm (int_of_int (round (collapse_min start_ end_))).

Definition main (args : Args) : outcome :=
  match generate_schedule (arg_start args) (arg_end args) (arg_days args)
                          (arg_finish_on_day args) (arg_rounding args) with
  | inl e => ParserError (str_of_exn e)
  | inr rows =>
      Done (write_csv rows)
           [ "Wrote " ++ str (Z.of_nat (List.length rows)) ++ " rows to '"
               ++ arg_output args ++ "'.";
             "Hour zero (midpoint of initial window) occurs at: "
               ++ collapse_hhmm (arg_start args) (arg_end args) ]
           0
  end.

(** The command-line reader of times.  [value.split(":")] cuts at every
    colon and always returns at least one part. *)
Fixpoint split_on (sep : ascii) (s : string) : list string :=
  match s with
  | EmptyString => [EmptyString]
  | String ch s' =>
      if Ascii.eqb ch sep then EmptyString :: split_on sep s'
      else match split_on sep s' with
           | part :: parts => String ch part :: parts
           | [] => [String ch EmptyString]
           end
  end.

Inductive arg_error : Type :=
| ArgumentTypeError (msg : string).

(** The body of the [try] block of [parse_hhmm]; [None] stands for any
    exception raised inside it.  The built-in [int] applied to a string is a
    parameter: [int s] is [None] where Python raises [ValueError]. *)
Definition parse_hhmm_try (int : string -> option Z) (value : string)
  : option Z :=
  let parts := split_on ":" value in
  if negb (Nat.eqb (List.length parts) 2) then None
  else
    match int (List.nth 0 parts EmptyString) with
    | None => None
    | Some h =>
        match int (List.nth 1 parts EmptyString) with
        | None => None
        | Some m =>
            if negb ((0 <=? h) && (h <=? 23) && ((0 <=? m) && (m <=? 59)))
            then None
            else Some (h * 60 + m)
        end
    end.

Definition parse_hhmm (int : string -> option Z) (value : string)
  : arg_error + Z :=
  match parse_hhmm_try int value with
  | Some minutes => inr minutes
  | None => inl (ArgumentTypeError ("Invalid HH:mm time: '" ++ value ++ "'"))
  end.

(** ** The specification's vocabulary

    The specification names four failure conditions; the program raises
    each as a [ValueError] with its own message. *)

Definition InvalidDaysError : exn :=
  ValueError "'days' must be a positive integer".
Definition EmptyWindowError : exn :=
  ValueError "Start and end times define an empty window (L=0)".
Definition InvalidInterpretationError : exn :=
  ValueError "finish_on_day must be 'inclusive' or 'after-steps'".
Definition InvalidRoundingError : exn :=
  ValueError "rounding must be 'nearest', 'floor', or 'ceil'".

(** Inputs the specification calls valid. *)
Definition clock_minute (x : Z) : Prop := 0 <= x <= 1439.

Definition recognised_interpretation (s : string) : Prop :=
  s = "inclusive" \/ s = "after-steps".

Definition recognised_rounding (s : string) : Prop :=
  s = "nearest" \/ s = "floor" \/ s = "ceil".

(** Reference definitions, written from the words of the specification
    (sections 3, 4.1, 4.2 and 4.3), to compare the program against. *)
Module Spec.

Inductive Interpretation : Type := inclusive | after_steps.

Definition interpretation_of (s : string) : option Interpretation :=
  if String.eqb s "inclusive" then Some inclusive
  else if String.eqb s "after-steps" then Some after_steps
  else None.

(** Section 3: normalization is ((x % 1440) + 1440) % 1440. *)
Definition normalize (x : Z) : Z := ((x mod 1440) + 1440) mod 1440.

(** Section 4.2: L = ((b - a) mod 1440). *)
Definition windowLength (a b : Z) : Z := (b - a) mod 1440.

(** Section 4.3. *)
Definition computeStep (a b days : Z) (interpretation : string) : result Q :=
  if days <=? 0 then raise InvalidDaysError
  else
    let L := windowLength a b in
    if L =? 0 then raise EmptyWindowError
    else
      match interpretation_of interpretation with
      | Some inclusive =>
          if days =? 1 then ret 0%Q
          else ret (inject_Z L / inject_Z (2 * (days - 1)))%Q
      | Some after_steps => ret (inject_Z L / inject_Z (2 * days))%Q
      | None => raise InvalidInterpretationError
      end.

End Spec.

(** ** Auxiliary definitions for the proofs *)

(** The value [_round] returns under a recognised policy. *)
Definition rounded (rounding : string) (x : Q) : Z :=
  if String.eqb rounding "nearest" then round_half_away_from_zero x
  else if String.eqb rounding "floor" then Qfloor x
  else Qceiling x.

(** The row the loop body builds on day [d]. *)
Definition row_of (rounding : string) (a_min b_min : Z) (m : Q) (d : Z)
  : ScheduleRow :=
  mkScheduleRow d (rounded rounding (raw_start a_min d m))
                  (rounded rounding (raw_end b_min d m)).

(** The one situation in which the last row can jump: nearest rounding, a
    window across midnight whose midpoint is a half minute (L odd) and
    whose raw end b - L/2 is negative. *)
Definition collapse_tie_below_zero (rounding : string) (a b : Z) : Prop :=
  rounding = "nearest" /\ b < a
  /\ Z.odd (window_length a b) = true /\ 2 * b < window_length a b.

(** The character of a decimal digit, and the two-character rendering of
    a number below 100. *)
Definition digit (n : Z) : ascii := ascii_of_nat (48 + Z.to_nat n).

Definition two_digits (n : Z) : string :=
  String (digit (n / 10)) (String (digit (n mod 10)) EmptyString).

(** How many times a character occurs in a string. *)
Fixpoint occurrences (ch : ascii) (s : string) : nat :=
  match s with
  | EmptyString => 0%nat
  | String c s' => ((if Ascii.eqb c ch then 1 else 0) + occurrences ch s')%nat
  end.

(** A reader of decimal numerals, used to instantiate [int]. *)
Definition decimal_int (s : string) : option Z :=
  option_map Z.of_int (NilZero.int_of_string s).

(** [lra] takes a quotient as an atom; write halves as products first. *)
Ltac halves :=
  repeat match goal with
         | |- context [(?x / 2)%Q] =>
             change (x / 2)%Q with (x * (1 # 2))%Q
         | H : context [(?x / 2)%Q] |- _ =>
             change (x / 2)%Q with (x * (1 # 2))%Q in H
         end.

(** ** The scenarios of the specification, run on the embedding *)

Example scenario_A :
  option_map (fun r => (day_id r, start_str r, end_str r))
             (match generate_schedule 540 1260 10 "inclusive" "nearest" with
              | inr rows => List.last (List.map Some rows) None
              | inl _ => None
              end)
  = Some (10, "15:00", "15:00").
Proof. reflexivity. Qed.

Example scenario_B :
  option_map (fun r => (day_id r, start_str r, end_str r))
             (match generate_schedule 540 1260 10 "after-steps" "nearest" with
              | inr rows => List.last (List.map Some rows) None
              | inl _ => None
              end)
  = Some (10, "14:24", "15:36").
Proof. reflexivity. Qed.

Example scenario_C :
  generate_schedule 540 1260 1 "inclusive" "nearest"
  = inr [mkScheduleRow 1 540 1260]
  /\ hhmm 540 = "09:00" /\ hhmm 1260 = "21:00".
Proof. repeat split. Qed.

Example docstring_midnight_crossing :
  match generate_schedule 1350 315 7 "inclusive" "nearest" with
  | inr rows => List.map (fun r => (start_str r, end_str r)) rows
  | inl _ => []
  end
  = [("22:30", "05:15"); ("23:04", "04:41"); ("23:38", "04:08");
     ("00:11", "03:34"); ("00:45", "03:00"); ("01:19", "02:26");
     ("01:53", "01:53")].
Proof. reflexivity. Qed.

(** ** Window length *)

Lemma DAY_MIN_eq : DAY_MIN = 1440.
Proof. reflexivity. Qed.

Lemma window_length_range (a b : Z) : 0 <= window_length a b < 1440.
Proof.
  unfold window_length, mod_. rewrite DAY_MIN_eq.
  apply Z.mod_pos_bound. lia.
Qed.

Lemma window_length_forward (a b : Z) :
  clock_minute a -> clock_minute b -> a <= b -> window_length a b = b - a.
Proof.
  unfold clock_minute, window_length, mod_. rewrite DAY_MIN_eq. intros Ha Hb Hab.
  apply Z.mod_small. lia.
Qed.

Lemma window_length_wrap (a b : Z) :
  clock_minute a -> clock_minute b -> b < a ->
  window_length a b = b - a + 1440.
Proof.
  unfold clock_minute, window_length, mod_. rewrite DAY_MIN_eq. intros Ha Hb Hab.
  symmetry. apply (Z.mod_unique (b - a) 1440 (-1)); lia.
Qed.

Lemma window_length_zero_iff (a b : Z) :
  clock_minute a -> clock_minute b -> (window_length a b = 0 <-> a = b).
Proof.
  intros Ha Hb. destruct (Z_lt_le_dec b a) as [Hlt | Hle].
  - rewrite (window_length_wrap a b Ha Hb Hlt).
    unfold clock_minute in *. lia.
  - rewrite (window_length_forward a b Ha Hb Hle). lia.
Qed.

(** C9.  For clock minutes a and b in [0, 1439], window_length a b is
    (b - a) mod 1440 and lies in [0, 1440); when the end is numerically
    earlier than the start the result is the positive forward length across
    midnight, b - a + 1440; and window_length (22*60+30) (5*60+15) = 405. *)
Theorem window_length_mod_1440 (a b : Z) :
  clock_minute a -> clock_minute b ->
  window_length a b = (b - a) mod 1440
  /\ 0 <= window_length a b < 1440
  /\ (b < a -> window_length a b = b - a + 1440 /\ 0 < window_length a b)
  /\ window_length (22 * 60 + 30) (5 * 60 + 15) = 405.
Proof.
  intros Ha Hb. split; [reflexivity |].
  split; [apply window_length_range |].
  split; [| reflexivity].
  intros Hlt. rewrite (window_length_wrap a b Ha Hb Hlt).
  unfold clock_minute in *. lia.
Qed.

Lemma window_length_mod_1440_witness :
  window_length 1350 315 = (315 - 1350) mod 1440
  /\ 0 <= window_length 1350 315 < 1440
  /\ (315 < 1350 ->
      window_length 1350 315 = 315 - 1350 + 1440 /\ 0 < window_length 1350 315)
  /\ window_length (22 * 60 + 30) (5 * 60 + 15) = 405.
Proof.
  apply (window_length_mod_1440 1350 315); unfold clock_minute; lia.
Defined.

(** ** The step-size solver *)

Lemma compute_daily_step_invalid_days (a b days : Z) (fod : string) :
  days <= 0 -> compute_daily_step a b days fod = inl InvalidDaysError.
Proof.
  intros H. unfold compute_daily_step.
  destruct (Z.leb_spec days 0); [reflexivity | lia].
Qed.

Lemma compute_daily_step_empty_window (a b days : Z) (fod : string) :
  1 <= days -> window_length a b = 0 ->
  compute_daily_step a b days fod = inl EmptyWindowError.
Proof.
  intros Hd HL. unfold compute_daily_step.
  destruct (Z.leb_spec days 0); [lia |].
  rewrite HL. reflexivity.
Qed.

(** The divisions of the program never meet a zero divisor. *)
Lemma truediv_twice (x : Q) (n : Z) :
  0 < n -> truediv x (2 * inject_Z n) = inr (x / (2 * inject_Z n))%Q.
Proof.
  intros Hn. unfold truediv.
  destruct (Qeq_bool (2 * inject_Z n) 0) eqn:E; [| reflexivity].
  apply Qeq_bool_iff in E. exfalso.
  assert (H : (0 < inject_Z n)%Q)
    by (change 0%Q with (inject_Z 0); rewrite <- Zlt_Qlt; exact Hn).
  lra.
Qed.

Lemma compute_daily_step_inclusive (a b days : Z) :
  1 < days -> window_length a b <> 0 ->
  compute_daily_step a b days "inclusive"
  = inr (inject_Z (window_length a b) / (2 * inject_Z (days - 1)))%Q.
Proof.
  intros Hd HL. unfold compute_daily_step.
  destruct (Z.leb_spec days 0); [lia |].
  destruct (Z.eqb_spec (window_length a b) 0); [contradiction |].
  cbn [String.eqb]. rewrite !Ascii.eqb_refl.
  destruct (Z.eqb_spec days 1); [lia |].
  apply truediv_twice. lia.
Qed.

Lemma step_nonneg (L n : Z) :
  0 <= L -> 0 < n -> (0 <= inject_Z L / (2 * inject_Z n))%Q.
Proof.
  intros HL Hn.
  apply Qle_shift_div_l.
  - change 0%Q with (2 * inject_Z 0)%Q.
    apply Qmult_lt_l; [reflexivity |].
    rewrite <- Zlt_Qlt. exact Hn.
  - rewrite Qmult_0_l. change 0%Q with (inject_Z 0).
    rewrite <- Zle_Qle. exact HL.
Qed.

Lemma compute_daily_step_nonneg (a b days : Z) (finish_on_day : string) :
  match compute_daily_step a b days finish_on_day with
  | inr m => (0 <= m)%Q
  | inl _ => True
  end.
Proof.
  pose proof (window_length_range a b) as HL.
  unfold compute_daily_step.
  destruct (Z.leb_spec days 0) as [Hd | Hd]; [exact I |].
  destruct (Z.eqb_spec (window_length a b) 0) as [H0 | H0]; [exact I |].
  destruct (String.eqb finish_on_day "inclusive").
  - destruct (Z.eqb_spec days 1) as [H1 | H1]; [apply Qle_refl |].
    rewrite truediv_twice by lia. apply step_nonneg; lia.
  - destruct (String.eqb finish_on_day "after-steps"); [| exact I].
    rewrite truediv_twice by lia. apply step_nonneg; lia.
Qed.

Lemma compute_daily_step_after_steps (a b days : Z) :
  0 < days -> window_length a b <> 0 ->
  compute_daily_step a b days "after-steps"
  = inr (inject_Z (window_length a b) / (2 * inject_Z days))%Q.
Proof.
  intros Hd HL. unfold compute_daily_step.
  destruct (Z.leb_spec days 0); [lia |].
  destruct (Z.eqb_spec (window_length a b) 0); [contradiction |].
  cbn [String.eqb Ascii.eqb Bool.eqb]. cbv iota.
  apply truediv_twice. exact Hd.
Qed.

Lemma compute_daily_step_single_day (a b : Z) :
  window_length a b <> 0 -> compute_daily_step a b 1 "inclusive" = inr 0%Q.
Proof.
  intros HL. unfold compute_daily_step. cbn [Z.leb Z.compare].
  destruct (Z.eqb_spec (window_length a b) 0); [contradiction |].
  reflexivity.
Qed.

Lemma compute_daily_step_computeStep (a b days : Z) (finish_on_day : string) :
  compute_daily_step a b days finish_on_day
  = Spec.computeStep a b days finish_on_day.
Proof.
  unfold compute_daily_step, Spec.computeStep, Spec.interpretation_of.
  change (Spec.windowLength a b) with (window_length a b).
  destruct (Z.leb_spec days 0) as [Hd | Hd]; [reflexivity |].
  destruct (window_length a b =? 0); [reflexivity |].
  destruct (String.eqb finish_on_day "inclusive").
  - destruct (Z.eqb_spec days 1) as [H1 | H1]; [reflexivity |].
    rewrite truediv_twice by lia. reflexivity.
  - destruct (String.eqb finish_on_day "after-steps"); [| reflexivity].
    rewrite truediv_twice by lia. reflexivity.
Qed.



(** ** Rounding *)

Lemma Qfloor_add_Z (x : Q) (k : Z) : Qfloor (x + inject_Z k) = Qfloor x + k.
Proof.
  destruct x as [n d]. unfold Qfloor, Qplus, inject_Z. cbn [Qnum Qden].
  rewrite Pos.mul_1_r, Z.mul_1_r. apply Z.div_add. discriminate.
Qed.

Lemma Qceiling_add_Z (x : Q) (k : Z) : Qceiling (x + inject_Z k) = Qceiling x + k.
Proof.
  unfold Qceiling.
  assert (E : (- (x + inject_Z k) == - x + inject_Z (- k))%Q).
  { rewrite inject_Z_opp. ring. }
  rewrite E, Qfloor_add_Z. lia.
Qed.

Lemma int_of_float_Z (z : Z) : int_of_float (inject_Z z) = z.
Proof.
  unfold int_of_float. destruct (Qle_bool 0 (inject_Z z)).
  - apply Qfloor_Z.
  - apply Qceiling_Z.
Qed.

Lemma floordiv_1 (x : Q) : floordiv x 1 = inject_Z (Qfloor x).
Proof.
  unfold floordiv. f_equal. apply Qfloor_comp. field.
Qed.

Lemma _round_nearest (x : Q) :
  _round "nearest" x = inr (round_half_away_from_zero x).
Proof. reflexivity. Qed.

Lemma _round_floor (x : Q) : _round "floor" x = inr (Qfloor x).
Proof.
  unfold _round. cbn [String.eqb Ascii.eqb Bool.eqb]. cbv iota.
  rewrite floordiv_1, int_of_float_Z. reflexivity.
Qed.

Lemma _round_ceil (x : Q) : _round "ceil" x = inr (Qceiling x).
Proof.
  unfold _round. cbn [String.eqb Ascii.eqb Bool.eqb]. cbv iota.
  rewrite floordiv_1.
  change (- inject_Z (Qfloor (- x)))%Q with (inject_Z (- Qfloor (- x))).
  rewrite int_of_float_Z. reflexivity.
Qed.

Lemma _round_unrecognised (rounding : string) (x : Q) :
  ~ recognised_rounding rounding ->
  _round rounding x = inl InvalidRoundingError.
Proof.
  intros H. unfold _round.
  destruct (String.eqb_spec rounding "nearest") as [-> | _];
    [exfalso; apply H; left; reflexivity |].
  destruct (String.eqb_spec rounding "floor") as [-> | _];
    [exfalso; apply H; right; left; reflexivity |].
  destruct (String.eqb_spec rounding "ceil") as [-> | _];
    [exfalso; apply H; right; right; reflexivity |].
  reflexivity.
Qed.

(** C8.  The floor policy maps every x, negative ones included, to the
    greatest integer at most x, and the ceil policy to the least integer at
    least x; floor (-2.5) = -3 and ceil (-2.5) = -2. *)
Theorem floor_ceil_policies (x : Q) :
  (exists z, _round "floor" x = inr z
             /\ (inject_Z z <= x)%Q
             /\ forall k : Z, (inject_Z k <= x)%Q -> k <= z)
  /\ (exists z, _round "ceil" x = inr z
                /\ (x <= inject_Z z)%Q
                /\ forall k : Z, (x <= inject_Z k)%Q -> z <= k)
  /\ _round "floor" (- (5 # 2)) = inr (-3)
  /\ _round "ceil" (- (5 # 2)) = inr (-2).
Proof.
  split; [| split; [| split; reflexivity]].
  - exists (Qfloor x). split; [apply _round_floor |].
    split; [apply Qfloor_le |].
    intros k Hk. rewrite <- (Qfloor_Z k). apply Qfloor_resp_le. exact Hk.
  - exists (Qceiling x). split; [apply _round_ceil |].
    split; [apply Qle_ceiling |].
    intros k Hk. rewrite <- (Qceiling_Z k). apply Qceiling_resp_le. exact Hk.
Qed.

Lemma floor_ceil_policies_witness :
  exists z, _round "floor" (- (5 # 2)) = inr z /\ -3 <= z.
Proof.
  destruct (floor_ceil_policies (- (5 # 2))) as [[z [Hz [_ Hmax]]] _].
  exists z. split; [exact Hz |].
  apply Hmax. vm_compute. discriminate.
Defined.

(** Where [round_half_away_from_zero] lands, by the sign of its argument. *)
Lemma round_half_away_nonneg (x : Q) :
  (0 <= x)%Q ->
  (inject_Z (round_half_away_from_zero x) <= x + (1 # 2)
   /\ x + (1 # 2) < inject_Z (round_half_away_from_zero x) + 1)%Q.
Proof.
  intros Hx. unfold round_half_away_from_zero, int_of_int, floor.
  apply Qle_bool_iff in Hx. rewrite Hx. split.
  - apply Qfloor_le.
  - pose proof (Qlt_floor (x + (1 # 2))) as H.
    rewrite inject_Z_plus in H. exact H.
Qed.

Lemma round_half_away_neg (x : Q) :
  (x < 0)%Q ->
  (inject_Z (round_half_away_from_zero x) - 1 < x - (1 # 2)
   /\ x - (1 # 2) <= inject_Z (round_half_away_from_zero x))%Q.
Proof.
  intros Hx. unfold round_half_away_from_zero, int_of_int, ceil.
  destruct (Qle_bool 0 x) eqn:E.
  - apply Qle_bool_iff in E. lra.
  - split.
    + pose proof (Qceiling_lt (x - (1 # 2))) as H.
      unfold Zminus in H. rewrite inject_Z_plus in H.
      change (inject_Z (- (1))) with (- (1))%Q in H. lra.
    + apply Qle_ceiling.
Qed.

Lemma round_half_away_within_half (x : Q) :
  (x - (1 # 2) <= inject_Z (round_half_away_from_zero x) <= x + (1 # 2))%Q.
Proof.
  destruct (Qlt_le_dec x 0) as [Hneg | Hpos].
  - pose proof (round_half_away_neg x Hneg). lra.
  - pose proof (round_half_away_nonneg x Hpos). lra.
Qed.

Lemma round_half_away_Z (z : Z) : round_half_away_from_zero (inject_Z z) = z.
Proof.
  unfold round_half_away_from_zero, int_of_int, floor, ceil.
  destruct (Qle_bool 0 (inject_Z z)).
  - rewrite Qplus_comm, Qfloor_add_Z. reflexivity.
  - unfold Qminus. rewrite Qplus_comm, Qceiling_add_Z. reflexivity.
Qed.

(** Two distinct integers are at least one apart. *)
Lemma Z_apart_Q (k z : Z) :
  k <> z -> (inject_Z k <= inject_Z z - 1 \/ inject_Z z + 1 <= inject_Z k)%Q.
Proof.
  intros Hne.
  assert (H : k <= z - 1 \/ z + 1 <= k) by lia.
  destruct H as [H | H]; [left | right]; rewrite Zle_Qle in H.
  - unfold Zminus in H. rewrite inject_Z_plus in H. exact H.
  - rewrite inject_Z_plus in H. exact H.
Qed.



Lemma _round_rounded (rounding : string) (x : Q) :
  recognised_rounding rounding -> _round rounding x = inr (rounded rounding x).
Proof.
  intros [-> | [-> | ->]].
  - apply _round_nearest.
  - apply _round_floor.
  - apply _round_ceil.
Qed.

#[export] Instance round_half_away_from_zero_comp :
  Proper (Qeq ==> eq) round_half_away_from_zero.
Proof.
  intros x y E. unfold round_half_away_from_zero, int_of_int, floor, ceil.
  rewrite (Qleb_comp 0%Q 0%Q (Qeq_refl 0%Q) x y E).
  destruct (Qle_bool 0 y); [apply Qfloor_comp | apply Qceiling_comp];
    rewrite E; reflexivity.
Qed.

#[export] Instance rounded_comp (rounding : string) :
  Proper (Qeq ==> eq) (rounded rounding).
Proof.
  intros x y E. unfold rounded.
  destruct (String.eqb rounding "nearest"); [rewrite E; reflexivity |].
  destruct (String.eqb rounding "floor"); rewrite E; reflexivity.
Qed.

(** Every recognised policy leaves an integer alone. *)
Lemma rounded_Z (rounding : string) (z : Z) : rounded rounding (inject_Z z) = z.
Proof.
  unfold rounded.
  destruct (String.eqb rounding "nearest"); [apply round_half_away_Z |].
  destruct (String.eqb rounding "floor"); [apply Qfloor_Z | apply Qceiling_Z].
Qed.

(** Every recognised policy is monotone. *)
Lemma round_half_away_mono (x y : Q) :
  (x <= y)%Q -> round_half_away_from_zero x <= round_half_away_from_zero y.
Proof.
  intros Hxy.
  destruct (Qlt_le_dec x 0) as [Hx | Hx]; destruct (Qlt_le_dec y 0) as [Hy | Hy].
  - unfold round_half_away_from_zero, int_of_int, ceil.
    destruct (Qle_bool 0 x) eqn:Ex; [apply Qle_bool_iff in Ex; lra |].
    destruct (Qle_bool 0 y) eqn:Ey; [apply Qle_bool_iff in Ey; lra |].
    apply Qceiling_resp_le. lra.
  - pose proof (round_half_away_neg x Hx) as [Hx1 _].
    pose proof (round_half_away_nonneg y Hy) as [_ Hy2].
    assert (H : (inject_Z (round_half_away_from_zero x)
                 < inject_Z (round_half_away_from_zero y + 1))%Q).
    { rewrite inject_Z_plus. change (inject_Z 1) with 1%Q. lra. }
    rewrite <- Zlt_Qlt in H. lia.
  - lra.
  - unfold round_half_away_from_zero, int_of_int, floor.
    apply Qle_bool_iff in Hx, Hy. rewrite Hx, Hy.
    apply Qfloor_resp_le. apply Qle_bool_iff in Hx, Hy. lra.
Qed.

Lemma rounded_mono (rounding : string) (x y : Q) :
  (x <= y)%Q -> rounded rounding x <= rounded rounding y.
Proof.
  intros Hxy. unfold rounded.
  destruct (String.eqb rounding "nearest"); [apply round_half_away_mono, Hxy |].
  destruct (String.eqb rounding "floor");
    [apply Qfloor_resp_le, Hxy | apply Qceiling_resp_le, Hxy].
Qed.

(** ** The schedule generator *)

Lemma range_cons (lo hi : Z) : lo < hi -> range lo hi = lo :: range (lo + 1) hi.
Proof.
  intros H. unfold range.
  replace (Z.to_nat (hi - lo)) with (S (Z.to_nat (hi - (lo + 1)))) by lia.
  cbn [List.seq List.map]. f_equal; [lia |].
  rewrite <- seq_shift, map_map. apply map_ext. intros i. lia.
Qed.

Lemma range_length (lo hi : Z) : List.length (range lo hi) = Z.to_nat (hi - lo).
Proof. unfold range. rewrite length_map, length_seq. reflexivity. Qed.

Lemma range_nth_error (lo hi : Z) (i : nat) :
  (i < Z.to_nat (hi - lo))%nat ->
  nth_error (range lo hi) i = Some (lo + Z.of_nat i).
Proof.
  intros H. unfold range.
  rewrite nth_error_map, nth_error_seq.
  destruct (Nat.ltb_spec i (Z.to_nat (hi - lo))); [reflexivity | lia].
Qed.

Lemma range_In (lo hi d : Z) : In d (range lo hi) <-> lo <= d < hi.
Proof.
  unfold range. rewrite in_map_iff. split.
  - intros [i [<- Hi]]. apply in_seq in Hi. lia.
  - intros H. exists (Z.to_nat (d - lo)). split; [lia |].
    apply in_seq. lia.
Qed.

Lemma for_each_total (body : Z -> result ScheduleRow) (f : Z -> ScheduleRow)
                     (ds : list Z) (rows : list ScheduleRow) :
  (forall d, In d ds -> body d = inr (f d)) ->
  for_each body ds rows = inr (rows ++ List.map f ds)%list.
Proof.
  revert rows. induction ds as [| d ds IH]; intros rows Hbody.
  - cbn. rewrite app_nil_r. reflexivity.
  - cbn [for_each List.map]. rewrite (Hbody d) by (left; reflexivity).
    cbn [bind]. rewrite IH by (intros d' Hd'; apply Hbody; right; exact Hd').
    rewrite <- app_assoc. reflexivity.
Qed.

Lemma for_each_raises (body : Z -> result ScheduleRow) (e : exn)
                      (d : Z) (ds : list Z) (rows : list ScheduleRow) :
  body d = inl e -> for_each body (d :: ds) rows = inl e.
Proof. intros H. cbn [for_each]. rewrite H. reflexivity. Qed.

Lemma make_row_row_of (rounding : string) (a b : Z) (m : Q) (d : Z) :
  recognised_rounding rounding ->
  make_row rounding a b m d = inr (row_of rounding a b m d).
Proof.
  intros Hr. unfold make_row.
  rewrite !(_round_rounded rounding _ Hr). reflexivity.
Qed.

Lemma generate_schedule_rows (a b days : Z) (fod rounding : string) (m : Q) :
  recognised_rounding rounding ->
  compute_daily_step a b days fod = inr m ->
  generate_schedule a b days fod rounding
  = inr (List.map (row_of rounding a b m) (range 1 (days + 1))).
Proof.
  intros Hr Hm. unfold generate_schedule. rewrite Hm. cbn [bind].
  assert (E : for_each (make_row rounding a b m) (range 1 (days + 1)) []
              = inr (List.map (row_of rounding a b m) (range 1 (days + 1)))).
  { rewrite (for_each_total _ (row_of rounding a b m)); [reflexivity |].
    intros d _. apply make_row_row_of, Hr. }
  destruct (String.eqb fod "inclusive"); exact E.
Qed.

Lemma compute_daily_step_returns (a b days : Z) (fod : string) :
  1 <= days -> window_length a b <> 0 -> recognised_interpretation fod ->
  exists m, compute_daily_step a b days fod = inr m /\ (0 <= m)%Q.
Proof.
  intros Hd HL Hfod.
  pose proof (compute_daily_step_nonneg a b days fod) as Hnn.
  destruct (compute_daily_step a b days fod) as [e | m] eqn:E.
  - exfalso. revert E. unfold compute_daily_step.
    destruct (Z.leb_spec days 0); [lia |].
    destruct (Z.eqb_spec (window_length a b) 0); [contradiction |].
    destruct Hfod as [-> | ->]; cbn [String.eqb Ascii.eqb Bool.eqb]; cbv iota.
    + destruct (Z.eqb_spec days 1); [discriminate |].
      rewrite truediv_twice by lia. discriminate.
    + rewrite truediv_twice by lia. discriminate.
  - exists m. split; [reflexivity | exact Hnn].
Qed.

(** *** The two failures raised past the day-count and window guards *)

Lemma compute_daily_step_unrecognised (a b days : Z) (fod : string) :
  1 <= days -> window_length a b <> 0 -> ~ recognised_interpretation fod ->
  compute_daily_step a b days fod = inl InvalidInterpretationError.
Proof.
  intros Hd HL Hfod. unfold compute_daily_step.
  destruct (Z.leb_spec days 0); [lia |].
  destruct (Z.eqb_spec (window_length a b) 0); [contradiction |].
  destruct (String.eqb_spec fod "inclusive") as [E | _];
    [exfalso; apply Hfod; left; exact E |].
  destruct (String.eqb_spec fod "after-steps") as [E | _];
    [exfalso; apply Hfod; right; exact E |].
  reflexivity.
Qed.

Lemma generate_schedule_unrecognised_interpretation
  (a b days : Z) (fod rounding : string) :
  1 <= days -> window_length a b <> 0 -> ~ recognised_interpretation fod ->
  generate_schedule a b days fod rounding = inl InvalidInterpretationError.
Proof.
  intros Hd HL Hfod. unfold generate_schedule.
  rewrite (compute_daily_step_unrecognised a b days fod Hd HL Hfod).
  reflexivity.
Qed.

Lemma generate_schedule_unrecognised_rounding
  (a b days : Z) (fod rounding : string) :
  1 <= days -> window_length a b <> 0 -> recognised_interpretation fod ->
  ~ recognised_rounding rounding ->
  generate_schedule a b days fod rounding = inl InvalidRoundingError.
Proof.
  intros Hd HL Hfod Hr.
  destruct (compute_daily_step_returns a b days fod Hd HL Hfod) as [m [Hm _]].
  unfold generate_schedule. rewrite Hm. cbn [bind].
  rewrite range_cons by lia.
  assert (E : make_row rounding a b m 1 = inl InvalidRoundingError).
  { unfold make_row. rewrite (_round_unrecognised rounding _ Hr). reflexivity. }
  rewrite !(for_each_raises _ _ _ _ _ E).
  destruct (String.eqb fod "inclusive"); reflexivity.
Qed.

(** *** Equal start and end *)

(** C2, as stated, fails when days is not positive: the day-count guard
    of compute_daily_step runs before the window is measured, so 09:00 to
    09:00 with days = 0 raises the day-count failure. *)
Lemma equal_times_zero_days_counterexample :
  generate_schedule 540 540 0 "inclusive" "nearest" = inl InvalidDaysError
  /\ generate_schedule 540 540 0 "inclusive" "nearest" <> inl EmptyWindowError.
Proof. split; [reflexivity | discriminate]. Qed.

(** C2, amended.  With equal start and end times, whatever the
    interpretation and rounding values, generate_schedule fails with
    EmptyWindowError for every days >= 1, and with InvalidDaysError for
    every days <= 0. *)
Theorem generate_schedule_equal_times (a days : Z) (fod rounding : string) :
  generate_schedule a a days fod rounding
  = inl (if days <=? 0 then InvalidDaysError else EmptyWindowError).
Proof.
  unfold generate_schedule, compute_daily_step.
  destruct (days <=? 0); [reflexivity |].
  assert (E : window_length a a = 0).
  { unfold window_length, mod_. rewrite Z.sub_diag. reflexivity. }
  rewrite E. reflexivity.
Qed.

(** *** The first row *)

Lemma offset_day_1 (m : Q) : (offset 1 m == 0)%Q.
Proof. unfold offset. cbn [Z.sub Z.add Z.opp Z.pos_sub]. ring. Qed.



(** *** What a row stores *)

Lemma normalize_mod (x : Z) : Spec.normalize x = x mod DAY_MIN.
Proof.
  unfold Spec.normalize. rewrite DAY_MIN_eq.
  pose proof (Z.mod_pos_bound x 1440 ltac:(lia)) as H.
  symmetry. apply (Z.mod_unique (x mod 1440 + 1440) 1440 1); lia.
Qed.

Lemma normalize_clock_minute (x : Z) : clock_minute (Spec.normalize x).
Proof.
  rewrite normalize_mod, DAY_MIN_eq. unfold clock_minute.
  pose proof (Z.mod_pos_bound x 1440 ltac:(lia)). lia.
Qed.

Lemma hhmm_normalize (x : Z) : hhmm x = hhmm (Spec.normalize x).
Proof.
  rewrite normalize_mod. unfold hhmm, mod_.
  rewrite Z.mod_mod by (rewrite DAY_MIN_eq; lia). reflexivity.
Qed.




(** *** The final row of the inclusive interpretation *)

Lemma fmod_comp (x y : Q) (n : Z) : (x == y)%Q -> (fmod x n == fmod y n)%Q.
Proof.
  intros E. unfold fmod.
  assert (F : Qfloor (x / inject_Z n) = Qfloor (y / inject_Z n))
    by (apply Qfloor_comp; rewrite E; reflexivity).
  rewrite F, E. reflexivity.
Qed.

Lemma fmod_add_day (x : Q) : (fmod (x + 1440) DAY_MIN == fmod x DAY_MIN)%Q.
Proof.
  unfold fmod. rewrite DAY_MIN_eq.
  assert (F : Qfloor ((x + 1440) / inject_Z 1440)
              = Qfloor (x / inject_Z 1440) + 1).
  { rewrite <- Qfloor_add_Z. apply Qfloor_comp.
    change (inject_Z 1440) with 1440%Q. change (inject_Z 1) with 1%Q. field. }
  rewrite F, inject_Z_plus.
  change (inject_Z 1440) with 1440%Q. change (inject_Z 1) with 1%Q. ring.
Qed.

Lemma inject_Z_nonzero (n : Z) : n <> 0 -> ~ (inject_Z n == 0)%Q.
Proof.
  intros Hn E. change 0%Q with (inject_Z 0) in E.
  rewrite inject_Z_injective in E. contradiction.
Qed.

Lemma final_offset (L days : Z) :
  1 < days ->
  (offset days (inject_Z L / (2 * inject_Z (days - 1))) == inject_Z L / 2)%Q.
Proof.
  intros Hd. unfold offset.
  pose proof (inject_Z_nonzero (days - 1) ltac:(lia)) as Hnz.
  field. exact Hnz.
Qed.

(** C1, as stated, fails for a window that crosses midnight: for 22:30 to
    05:15 over 7 days the last row has raw start 1552.5 and raw end 112.5;
    they are not equal, and the raw start is not (a + L/2) mod 1440. *)
Lemma final_row_raw_values_differ_counterexample :
  exists m,
    compute_daily_step 1350 315 7 "inclusive" = inr m
    /\ (raw_start 1350 7 m == 3105 # 2)%Q
    /\ (raw_end 315 7 m == 225 # 2)%Q
    /\ ~ (raw_start 1350 7 m == raw_end 315 7 m)%Q
    /\ ~ (raw_start 1350 7 m
          == fmod (inject_Z 1350 + inject_Z (window_length 1350 315) / 2)
                  DAY_MIN)%Q.
Proof.
  eexists. split; [reflexivity |].
  split; [reflexivity |].
  split; [reflexivity |].
  split; intros H; vm_compute in H; discriminate H.
Qed.

(** C1, amended.  For the inclusive interpretation with days > 1 and
    clock minutes a <> b, the cumulative offset on the last day is exactly
    L/2, the last row's raw start is a + L/2 and its raw end is b - L/2.
    The two are equal when a < b and exactly 1440 apart when the window
    crosses midnight (b < a); in both cases they agree modulo 1440, with
    common residue (a + L/2) mod 1440. *)
Theorem final_row_meets_modulo_day (a b days : Z) :
  clock_minute a -> clock_minute b -> a <> b -> 1 < days ->
  exists m,
    compute_daily_step a b days "inclusive" = inr m
    /\ (offset days m == inject_Z (window_length a b) / 2)%Q
    /\ (raw_start a days m == inject_Z a + inject_Z (window_length a b) / 2)%Q
    /\ (raw_end b days m == inject_Z b - inject_Z (window_length a b) / 2)%Q
    /\ (a < b -> (raw_start a days m == raw_end b days m)%Q)
    /\ (b < a -> (raw_start a days m == raw_end b days m + 1440)%Q)
    /\ (fmod (raw_start a days m) DAY_MIN
        == fmod (raw_end b days m) DAY_MIN)%Q
    /\ (fmod (raw_start a days m) DAY_MIN
        == fmod (inject_Z a + inject_Z (window_length a b) / 2) DAY_MIN)%Q.
Proof.
  intros Ha Hb Hab Hd.
  assert (HL : window_length a b <> 0).
  { rewrite (window_length_zero_iff a b Ha Hb). exact Hab. }
  eexists. split; [apply compute_daily_step_inclusive; assumption |].
  pose proof (final_offset (window_length a b) days Hd) as Hoff.
  set (m := (inject_Z (window_length a b) / (2 * inject_Z (days - 1)))%Q) in *.
  assert (Hs : (raw_start a days m
                == inject_Z a + inject_Z (window_length a b) / 2)%Q)
    by (unfold raw_start; rewrite Hoff; reflexivity).
  assert (He : (raw_end b days m
                == inject_Z b - inject_Z (window_length a b) / 2)%Q)
    by (unfold raw_end; rewrite Hoff; reflexivity).
  assert (Hfwd : a < b -> (raw_start a days m == raw_end b days m)%Q).
  { intros Hlt. rewrite Hs, He.
    rewrite (window_length_forward a b Ha Hb) by lia.
    unfold Zminus. rewrite inject_Z_plus, inject_Z_opp. field. }
  assert (Hwrap : b < a -> (raw_start a days m == raw_end b days m + 1440)%Q).
  { intros Hlt. rewrite Hs, He.
    rewrite (window_length_wrap a b Ha Hb Hlt).
    unfold Zminus. rewrite !inject_Z_plus, inject_Z_opp.
    change (inject_Z 1440) with 1440%Q. field. }
  split; [exact Hoff |].
  split; [exact Hs |].
  split; [exact He |].
  split; [exact Hfwd |].
  split; [exact Hwrap |].
  split; [| apply fmod_comp, Hs].
  destruct (Z_lt_le_dec a b) as [Hlt | Hge].
  - apply fmod_comp, Hfwd, Hlt.
  - rewrite (fmod_comp _ _ DAY_MIN (Hwrap ltac:(lia))). apply fmod_add_day.
Qed.

Lemma final_row_meets_modulo_day_witness :
  exists m,
    compute_daily_step 1350 315 7 "inclusive" = inr m
    /\ (offset 7 m == inject_Z (window_length 1350 315) / 2)%Q
    /\ (raw_start 1350 7 m
        == inject_Z 1350 + inject_Z (window_length 1350 315) / 2)%Q
    /\ (raw_end 315 7 m
        == inject_Z 315 - inject_Z (window_length 1350 315) / 2)%Q
    /\ (1350 < 315 -> (raw_start 1350 7 m == raw_end 315 7 m)%Q)
    /\ (315 < 1350 -> (raw_start 1350 7 m == raw_end 315 7 m + 1440)%Q)
    /\ (fmod (raw_start 1350 7 m) DAY_MIN
        == fmod (raw_end 315 7 m) DAY_MIN)%Q
    /\ (fmod (raw_start 1350 7 m) DAY_MIN
        == fmod (inject_Z 1350 + inject_Z (window_length 1350 315) / 2)
                DAY_MIN)%Q.
Proof.
  apply (final_row_meets_modulo_day 1350 315 7).
  - unfold clock_minute; lia.
  - unfold clock_minute; lia.
  - lia.
  - lia.
Defined.

(** *** The summary line *)

(** C6.  The summary line for the window 00:00 to 00:01, whose midpoint
    is 0.5 minutes: main rounds it with the built-in round, which sends a
    half to the even neighbour 0, and prints hour zero 00:00;
    round_half_away_from_zero sends the same midpoint to 1 (00:01), which is
    what the last row of the same run shows. *)
Theorem summary_rounds_half_to_even :
  (collapse_min 0 1 == 1 # 2)%Q
  /\ round (collapse_min 0 1) = 0
  /\ collapse_hhmm 0 1 = "00:00"
  /\ hhmm (round_half_away_from_zero
             (inject_Z 0 + inject_Z (window_length 0 1) / 2)) = "00:01"
  /\ main (mkArgs 0 1 2 "inclusive" "nearest" "schedule.csv")
     = Done [ ["id"; "start"; "end"];
              ["1"; "00:00"; "00:01"];
              ["2"; "00:01"; "00:01"] ]
            [ "Wrote 2 rows to 'schedule.csv'.";
              "Hour zero (midpoint of initial window) occurs at: 00:00" ]
            0.
Proof. repeat split. Qed.

(** *** Monotone narrowing *)

Lemma nearest_gap_strict (s e : Q) (c : Z) :
  (s < e + inject_Z c)%Q ->
  round_half_away_from_zero s <= round_half_away_from_zero e + c.
Proof.
  intros H.
  pose proof (round_half_away_within_half s) as [_ Hs].
  pose proof (round_half_away_within_half e) as [He _].
  assert (Hlt : (inject_Z (round_half_away_from_zero s)
                 < inject_Z (round_half_away_from_zero e + c + 1))%Q).
  { rewrite !inject_Z_plus. change (inject_Z 1) with 1%Q. lra. }
  rewrite <- Zlt_Qlt in Hlt. lia.
Qed.

Lemma nearest_shift_nonneg (e : Q) (c : Z) :
  (0 <= e)%Q -> 0 <= c ->
  round_half_away_from_zero (e + inject_Z c) = round_half_away_from_zero e + c.
Proof.
  intros He Hc. rewrite Zle_Qle in Hc. change (inject_Z 0) with 0%Q in Hc.
  unfold round_half_away_from_zero, int_of_int, floor.
  assert (H1 : Qle_bool 0 e = true) by (apply Qle_bool_iff; exact He).
  assert (H2 : Qle_bool 0 (e + inject_Z c) = true) by (apply Qle_bool_iff; lra).
  rewrite H1, H2, <- Qfloor_add_Z. apply Qfloor_comp. ring.
Qed.

Lemma rounded_shift_Z (rounding : string) (z c : Z) (e : Q) :
  (e == inject_Z z)%Q ->
  rounded rounding (e + inject_Z c) = rounded rounding e + c.
Proof.
  intros E.
  assert (E' : (e + inject_Z c == inject_Z (z + c))%Q)
    by (rewrite E, inject_Z_plus; reflexivity).
  rewrite E', E, !rounded_Z. reflexivity.
Qed.

Lemma window_length_of_gap (s e c : Z) :
  c = 0 \/ c = 1440 -> 0 <= e - s + c < 1440 ->
  window_length s e = e - s + c.
Proof.
  intros Hc H. unfold window_length, mod_. rewrite DAY_MIN_eq.
  symmetry. destruct Hc as [-> | ->].
  - apply (Z.mod_unique (e - s) 1440 0); lia.
  - apply (Z.mod_unique (e - s) 1440 (-1)); lia.
Qed.

Section InclusiveNarrowing.

Variables (a b days : Z) (rounding : string).
Hypothesis Ha : clock_minute a.
Hypothesis Hb : clock_minute b.
Hypothesis Hab : a <> b.
Hypothesis Hdays : 1 < days.
Hypothesis Hr : recognised_rounding rounding.

Local Abbreviation L := (window_length a b).
Local Abbreviation m := (inject_Z L / (2 * inject_Z (days - 1)))%Q.
(** How far the end lies behind the start on the dial: 0, or 1440 when the
    window crosses midnight. *)
Local Abbreviation c := (L - (b - a)).
Local Abbreviation S d := (rounded rounding (raw_start a d m)).
Local Abbreviation E d := (rounded rounding (raw_end b d m)).

Lemma L_bounds : 0 < L < 1440.
Proof.
  pose proof (window_length_range a b).
  pose proof (window_length_zero_iff a b Ha Hb). lia.
Qed.

Lemma crossing_cases : (a < b /\ c = 0) \/ (b < a /\ c = 1440).
Proof.
  destruct (Z_lt_le_dec b a) as [Hlt | Hle].
  - right. rewrite (window_length_wrap a b Ha Hb Hlt). lia.
  - left. rewrite (window_length_forward a b Ha Hb Hle). lia.
Qed.

Lemma step_pos : (0 < m)%Q.
Proof.
  pose proof L_bounds as HL.
  apply Qlt_shift_div_l.
  - change 0%Q with (2 * inject_Z 0)%Q.
    apply Qmult_lt_l; [reflexivity |].
    rewrite <- Zlt_Qlt. lia.
  - rewrite Qmult_0_l. change 0%Q with (inject_Z 0).
    rewrite <- Zlt_Qlt. lia.
Qed.

Lemma offset_succ (d : Z) : (offset (d + 1) m == offset d m + m)%Q.
Proof.
  unfold offset.
  replace (d + 1 - 1) with ((d - 1) + 1) by lia.
  rewrite inject_Z_plus. change (inject_Z 1) with 1%Q. ring.
Qed.

Lemma offset_from_end (d : Z) :
  (offset d m == inject_Z L / 2 - inject_Z (days - d) * m)%Q.
Proof.
  rewrite <- (final_offset L days Hdays). unfold offset.
  replace (days - 1) with ((d - 1) + (days - d)) at 2 by lia.
  rewrite inject_Z_plus. ring.
Qed.

Lemma offset_le_half (d : Z) :
  d <= days -> (offset d m <= inject_Z L / 2)%Q.
Proof.
  intros Hd. rewrite offset_from_end.
  assert (H : (0 <= inject_Z (days - d) * m)%Q).
  { apply Qmult_le_0_compat.
    - change 0%Q with (inject_Z 0). rewrite <- Zle_Qle. lia.
    - apply Qlt_le_weak, step_pos. }
  lra.
Qed.

Lemma offset_lt_half (d : Z) :
  d < days -> (offset d m < inject_Z L / 2)%Q.
Proof.
  intros Hd. rewrite offset_from_end.
  assert (H : (0 < inject_Z (days - d) * m)%Q).
  { apply Qmult_lt_0_compat.
    - change 0%Q with (inject_Z 0). rewrite <- Zlt_Qlt. lia.
    - apply step_pos. }
  lra.
Qed.

Lemma offset_nonneg (d : Z) : 1 <= d -> (0 <= offset d m)%Q.
Proof.
  intros Hd. unfold offset. apply Qmult_le_0_compat.
  - change 0%Q with (inject_Z 0). rewrite <- Zle_Qle. lia.
  - apply Qlt_le_weak, step_pos.
Qed.

(** The raw end, moved forward by [c], minus the raw start. *)
Lemma raw_gap (d : Z) :
  (raw_end b d m + inject_Z c - raw_start a d m
   == inject_Z L - 2 * offset d m)%Q.
Proof.
  unfold raw_end, raw_start, Zminus.
  rewrite !inject_Z_plus, !inject_Z_opp, !inject_Z_plus, inject_Z_opp. ring.
Qed.

Lemma start_nondecreasing (d : Z) : S d <= S (d + 1).
Proof.
  apply rounded_mono. unfold raw_start. rewrite offset_succ.
  pose proof step_pos. lra.
Qed.

Lemma end_nonincreasing (d : Z) : E (d + 1) <= E d.
Proof.
  apply rounded_mono. unfold raw_end. rewrite offset_succ.
  pose proof step_pos. lra.
Qed.

Lemma start_at_least_a (d : Z) : 1 <= d -> a <= S d.
Proof.
  intros Hd.
  assert (H : rounded rounding (inject_Z a) <= S d).
  { apply rounded_mono. unfold raw_start.
    pose proof (offset_nonneg d Hd). lra. }
  rewrite rounded_Z in H. exact H.
Qed.

Lemma end_at_most_b (d : Z) : 1 <= d -> E d <= b.
Proof.
  intros Hd.
  assert (H : E d <= rounded rounding (inject_Z b)).
  { apply rounded_mono. unfold raw_end.
    pose proof (offset_nonneg d Hd). lra. }
  rewrite rounded_Z in H. exact H.
Qed.

(** Until the last day the forward-moved raw end stays strictly ahead of
    the raw start; on the last day they meet. *)
Lemma raw_start_before_end (d : Z) :
  d < days -> (raw_start a d m < raw_end b d m + inject_Z c)%Q.
Proof.
  intros Hd. pose proof (raw_gap d). pose proof (offset_lt_half d Hd).
  halves. lra.
Qed.

Lemma raw_start_meets_end :
  (raw_start a days m == raw_end b days m + inject_Z c)%Q.
Proof.
  pose proof (raw_gap days) as H. rewrite (final_offset L days Hdays) in H.
  halves. lra.
Qed.

Lemma final_raw_end : (raw_end b days m == inject_Z b - inject_Z L / 2)%Q.
Proof. unfold raw_end. rewrite (final_offset L days Hdays). reflexivity. Qed.

Lemma final_raw_end_even :
  Z.odd L = false -> (raw_end b days m == inject_Z (b - L / 2))%Q.
Proof.
  intros Hodd. rewrite final_raw_end.
  assert (E2 : L = 2 * (L / 2)).
  { pose proof (Z.div_mod L 2 ltac:(lia)) as Hdm.
    rewrite (Zmod_odd L), Hodd in Hdm. lia. }
  rewrite E2 at 1. unfold Zminus.
  rewrite inject_Z_plus, inject_Z_opp, inject_Z_mult.
  change (inject_Z 2) with 2%Q. field.
Qed.

(** The rounded start never overtakes the rounded end moved forward by
    [c], except in the one situation set apart above. *)
Lemma gap_lower (d : Z) :
  1 <= d <= days ->
  ~ (d = days /\ collapse_tie_below_zero rounding a b) ->
  S d <= E d + c.
Proof.
  intros Hd Hex.
  destruct crossing_cases as [[Hlt Hc] | [Hlt Hc]].
  - rewrite Hc, Z.add_0_r. apply rounded_mono.
    pose proof (raw_gap d) as Hg. rewrite Hc in Hg.
    pose proof (offset_le_half d ltac:(lia)).
    change (inject_Z 0) with 0%Q in Hg. halves. lra.
  - assert (Hle : (raw_start a d m <= raw_end b d m + inject_Z c)%Q).
    { pose proof (raw_gap d). pose proof (offset_le_half d ltac:(lia)).
      halves. lra. }
    destruct Hr as [Hn | [Hf | Hce]].
    + destruct (Z.eq_dec d days) as [Hlast | Hnot].
      * rewrite Hlast.
        rewrite (rounded_comp rounding _ _ raw_start_meets_end).
        destruct (Z.odd L) eqn:Hodd.
        { assert (H2b : L <= 2 * b).
          { destruct (Z_le_gt_dec L (2 * b)) as [H | H]; [exact H |].
            exfalso. apply Hex. split; [exact Hlast |].
            unfold collapse_tie_below_zero.
            repeat split; [exact Hn | lia | exact Hodd | lia]. }
          rewrite Hn. change (rounded "nearest") with round_half_away_from_zero.
          rewrite nearest_shift_nonneg; [lia | | lia].
          rewrite final_raw_end. rewrite Zle_Qle in H2b.
          rewrite inject_Z_mult in H2b. change (inject_Z 2) with 2%Q in H2b.
          halves. lra. }
        { rewrite (rounded_shift_Z rounding (b - L / 2) c);
            [lia | apply final_raw_end_even; exact Hodd]. }
      * rewrite Hn. change (rounded "nearest") with round_half_away_from_zero.
        apply nearest_gap_strict, raw_start_before_end. lia.
    + rewrite Hf. change (rounded "floor") with Qfloor.
      rewrite <- Qfloor_add_Z. apply Qfloor_resp_le, Hle.
    + rewrite Hce. change (rounded "ceil") with Qceiling.
      rewrite <- Qceiling_add_Z. apply Qceiling_resp_le, Hle.
Qed.

Lemma row_window_length (d : Z) :
  1 <= d <= days ->
  ~ (d = days /\ collapse_tie_below_zero rounding a b) ->
  window_length (S d) (E d) = E d - S d + c.
Proof.
  intros Hd Hex. apply window_length_of_gap.
  - destruct crossing_cases as [[_ Hc] | [_ Hc]]; [left | right]; exact Hc.
  - pose proof (gap_lower d Hd Hex).
    pose proof (start_at_least_a d ltac:(lia)).
    pose proof (end_at_most_b d ltac:(lia)).
    pose proof L_bounds. lia.
Qed.

Lemma narrowing_step (d : Z) :
  2 <= d <= days ->
  ~ (d = days /\ collapse_tie_below_zero rounding a b) ->
  window_length (S d) (E d) <= window_length (S (d - 1)) (E (d - 1)).
Proof.
  intros Hd Hex.
  rewrite (row_window_length d) by (lia || exact Hex).
  rewrite (row_window_length (d - 1)) by (lia || (intros [H _]; lia)).
  pose proof (start_nondecreasing (d - 1)) as Hs.
  pose proof (end_nonincreasing (d - 1)) as He.
  replace (d - 1 + 1) with d in Hs, He by lia. lia.
Qed.

End InclusiveNarrowing.

Lemma rows_nth_error (rounding : string) (a b days : Z) (m : Q) (d : Z) :
  1 <= d <= days ->
  nth_error (List.map (row_of rounding a b m) (range 1 (days + 1)))
            (Z.to_nat (d - 1))
  = Some (row_of rounding a b m d).
Proof.
  intros Hd. rewrite nth_error_map, range_nth_error by lia.
  cbn [option_map]. do 2 f_equal. lia.
Qed.

(** Nearest rounding of a half-integer: up when it is positive, down when
    it is negative. *)
Lemma round_half_away_tie_nonneg (z : Z) :
  0 <= z -> round_half_away_from_zero (inject_Z z + (1 # 2)) = z + 1.
Proof.
  intros Hz. rewrite Zle_Qle in Hz. change (inject_Z 0) with 0%Q in Hz.
  unfold round_half_away_from_zero, int_of_int, floor.
  assert (H : Qle_bool 0 (inject_Z z + (1 # 2)) = true)
    by (apply Qle_bool_iff; lra).
  rewrite H.
  assert (E : (inject_Z z + (1 # 2) + (1 # 2) == inject_Z (z + 1))%Q)
    by (rewrite inject_Z_plus; change (inject_Z 1) with 1%Q; ring).
  rewrite E. apply Qfloor_Z.
Qed.

Lemma round_half_away_tie_neg (z : Z) :
  z < 0 -> round_half_away_from_zero (inject_Z z + (1 # 2)) = z.
Proof.
  intros Hz.
  assert (Hz' : (inject_Z z <= inject_Z (- 1))%Q) by (rewrite <- Zle_Qle; lia).
  change (inject_Z (- 1)) with (- (1))%Q in Hz'.
  unfold round_half_away_from_zero, int_of_int, ceil.
  destruct (Qle_bool 0 (inject_Z z + (1 # 2))) eqn:H.
  - apply Qle_bool_iff in H. lra.
  - assert (E : (inject_Z z + (1 # 2) - (1 # 2) == inject_Z z)%Q) by ring.
    rewrite E. apply Qceiling_Z.
Qed.

(** In the situation set apart above, the last row's end is rounded one
    minute behind its start, a full turn earlier. *)
Lemma collapse_tie_final_row (a b days : Z) :
  clock_minute a -> clock_minute b -> 1 < days ->
  collapse_tie_below_zero "nearest" a b ->
  forall m : Q,
    m = (inject_Z (window_length a b) / (2 * inject_Z (days - 1)))%Q ->
    end_min (row_of "nearest" a b m days)
    = start_min (row_of "nearest" a b m days) - 1441.
Proof.
  intros Ha Hb Hdays [_ [Hlt [Hodd H2b]]] m ->.
  pose proof (window_length_wrap a b Ha Hb Hlt) as HL.
  set (L := window_length a b) in *.
  assert (E2 : L = 2 * (L / 2) + 1).
  { pose proof (Z.div_mod L 2 ltac:(lia)) as Hdm.
    rewrite (Zmod_odd L), Hodd in Hdm. exact Hdm. }
  pose proof (final_offset L days Hdays) as Hoff.
  assert (Hs : (raw_start a days (inject_Z L / (2 * inject_Z (days - 1)))
                == inject_Z (a + L / 2) + (1 # 2))%Q).
  { unfold raw_start. rewrite Hoff. rewrite E2 at 1.
    rewrite !inject_Z_plus, inject_Z_mult.
    change (inject_Z 2) with 2%Q. change (inject_Z 1) with 1%Q. field. }
  assert (He : (raw_end b days (inject_Z L / (2 * inject_Z (days - 1)))
                == inject_Z (b - L / 2 - 1) + (1 # 2))%Q).
  { unfold raw_end. rewrite Hoff. rewrite E2 at 1. unfold Zminus.
    rewrite !inject_Z_plus, !inject_Z_opp, inject_Z_mult.
    change (inject_Z 2) with 2%Q. change (inject_Z 1) with 1%Q. field. }
  unfold row_of. cbn [start_min end_min].
  change (rounded "nearest") with round_half_away_from_zero.
  unfold clock_minute in *.
  rewrite Hs, He.
  rewrite (round_half_away_tie_nonneg (a + L / 2)) by lia.
  rewrite (round_half_away_tie_neg (b - L / 2 - 1)) by lia.
  lia.
Qed.




(** * Further properties of the program *)

(** ** Window length, once more *)

(** X1.  window_length sees only the positions on the dial: normalizing
    both ends modulo 1440 leaves it unchanged, so the length of a row is the
    same on its stored values and on its displayed values. *)
Theorem window_length_normalize (x y : Z) :
  window_length (Spec.normalize x) (Spec.normalize y) = window_length x y.
Proof.
  rewrite !normalize_mod. unfold window_length, mod_.
  rewrite <- Zminus_mod. reflexivity.
Qed.

(** X2.  Swapping start and end gives the complementary window: unless
    the two ends coincide on the dial, the two lengths add up to a day. *)
Theorem window_length_complement (x y : Z) :
  window_length x y <> 0 -> window_length x y + window_length y x = 1440.
Proof.
  unfold window_length, mod_. rewrite DAY_MIN_eq. intros H.
  replace (x - y) with (- (y - x)) by lia.
  rewrite Z.mod_opp_l_nz by (lia || exact H). lia.
Qed.

Lemma window_length_complement_witness :
  window_length 1350 315 + window_length 315 1350 = 1440.
Proof.
  apply (window_length_complement 1350 315). vm_compute. discriminate.
Defined.

(** ** The rendering of times *)

Lemma digit_injective (p q : Z) :
  0 <= p <= 9 -> 0 <= q <= 9 -> digit p = digit q -> p = q.
Proof.
  intros Hp Hq E. unfold digit in E.
  apply (f_equal nat_of_ascii) in E.
  rewrite !nat_ascii_embedding in E by lia. lia.
Qed.

Lemma two_digits_injective (p q : Z) :
  0 <= p < 100 -> 0 <= q < 100 -> two_digits p = two_digits q -> p = q.
Proof.
  intros Hp Hq E. unfold two_digits in E. injection E as E1 E0.
  pose proof (Z.div_mod p 10 ltac:(lia)).
  pose proof (Z.div_mod q 10 ltac:(lia)).
  pose proof (Z.mod_pos_bound p 10 ltac:(lia)).
  pose proof (Z.mod_pos_bound q 10 ltac:(lia)).
  apply digit_injective in E1; [| lia | lia].
  apply digit_injective in E0; [| lia | lia]. lia.
Qed.

Lemma fmt_02d_table :
  forallb (fun n => String.eqb (fmt_02d n) (two_digits n)) (range 0 100) = true.
Proof. vm_compute. reflexivity. Qed.

Lemma fmt_02d_two_digits (n : Z) : 0 <= n < 100 -> fmt_02d n = two_digits n.
Proof.
  intros Hn. pose proof fmt_02d_table as T.
  rewrite forallb_forall in T. apply String.eqb_eq, T, range_In. lia.
Qed.

Lemma clock_parts (m : Z) :
  0 <= (m mod DAY_MIN) / 60 <= 23 /\ 0 <= (m mod DAY_MIN) mod 60 <= 59.
Proof.
  rewrite DAY_MIN_eq.
  pose proof (Z.mod_pos_bound m 1440 ltac:(lia)) as Hm.
  pose proof (Z.mod_pos_bound (m mod 1440) 60 ltac:(lia)).
  pose proof (Z.div_mod (m mod 1440) 60 ltac:(lia)).
  split; [| lia].
  split; [apply Z.div_pos; lia |].
  apply Z.lt_succ_r. apply Z.div_lt_upper_bound; lia.
Qed.

Lemma hhmm_two_digits (m : Z) :
  hhmm m = two_digits ((m mod DAY_MIN) / 60) ++ ":"
           ++ two_digits ((m mod DAY_MIN) mod 60).
Proof.
  destruct (clock_parts m) as [Hh Hm].
  unfold hhmm, mod_, divmod.
  rewrite !fmt_02d_two_digits by lia. reflexivity.
Qed.

Lemma hhmm_congr (m m' : Z) :
  m mod 1440 = m' mod 1440 -> hhmm m = hhmm m'.
Proof.
  intros E. unfold hhmm, mod_. rewrite DAY_MIN_eq, E. reflexivity.
Qed.

Lemma hhmm_length (m : Z) : String.length (hhmm m) = 5%nat.
Proof. rewrite hhmm_two_digits. reflexivity. Qed.

(** X3.  hhmm is total and always writes five characters, two digits of
    an hour in 00..23, a colon, two digits of a minute in 00..59, namely the
    hour and minute of its argument reduced modulo 1440 (negative arguments
    included). *)
Theorem hhmm_format (m : Z) :
  exists h mi,
    0 <= h <= 23 /\ 0 <= mi <= 59
    /\ m mod 1440 = h * 60 + mi
    /\ hhmm m
       = String (digit (h / 10)) (String (digit (h mod 10)) (String ":"
           (String (digit (mi / 10)) (String (digit (mi mod 10)) ""))))
    /\ String.length (hhmm m) = 5%nat.
Proof.
  destruct (clock_parts m) as [Hh Hm].
  exists ((m mod DAY_MIN) / 60), ((m mod DAY_MIN) mod 60).
  split; [exact Hh |]. split; [exact Hm |].
  split.
  { rewrite DAY_MIN_eq.
    pose proof (Z.div_mod (m mod 1440) 60 ltac:(lia)). lia. }
  rewrite hhmm_two_digits. split; reflexivity.
Qed.

(** X4.  Two times are rendered alike exactly when they are the same
    minute of the day: hhmm m = hhmm m' if and only if m and m' agree
    modulo 1440. *)
Theorem hhmm_eq_iff (m m' : Z) :
  hhmm m = hhmm m' <-> m mod 1440 = m' mod 1440.
Proof.
  split.
  - intros E. rewrite !hhmm_two_digits in E.
    destruct (clock_parts m) as [Hh Hm]. destruct (clock_parts m') as [Hh' Hm'].
    unfold two_digits in E. cbn [String.append] in E.
    injection E as E1 E2 E3 E4.
    assert (Eh : (m mod DAY_MIN) / 60 = (m' mod DAY_MIN) / 60).
    { apply two_digits_injective; [lia | lia |].
      unfold two_digits. rewrite E1, E2. reflexivity. }
    assert (Em : (m mod DAY_MIN) mod 60 = (m' mod DAY_MIN) mod 60).
    { apply two_digits_injective; [lia | lia |].
      unfold two_digits. rewrite E3, E4. reflexivity. }
    rewrite DAY_MIN_eq in Eh, Em.
    pose proof (Z.div_mod (m mod 1440) 60 ltac:(lia)).
    pose proof (Z.div_mod (m' mod 1440) 60 ltac:(lia)). lia.
  - apply hhmm_congr.
Qed.

(** ** The command-line reader of times *)

Lemma split_on_length (sep : ascii) (s : string) :
  List.length (split_on sep s) = S (occurrences sep s).
Proof.
  induction s as [| ch s IH]; [reflexivity |].
  cbn [split_on occurrences]. destruct (Ascii.eqb ch sep).
  - cbn [List.length]. rewrite IH. reflexivity.
  - destruct (split_on sep s) as [| part parts]; [discriminate IH |].
    cbn [List.length] in *. exact IH.
Qed.

Lemma split_on_single (sep : ascii) (s part : string) :
  split_on sep s = [part] -> s = part.
Proof.
  revert part. induction s as [| ch s IH]; intros part E.
  - cbn in E. injection E as <-. reflexivity.
  - cbn [split_on] in E. destruct (Ascii.eqb ch sep).
    + pose proof (split_on_length sep s) as Hl.
      injection E as _ E. rewrite E in Hl. discriminate Hl.
    + destruct (split_on sep s) as [| p ps] eqn:Es.
      * pose proof (split_on_length sep s) as Hl. rewrite Es in Hl.
        discriminate Hl.
      * injection E as <- ->. rewrite (IH p eq_refl). reflexivity.
Qed.

Lemma split_on_pair (sep : ascii) (s p0 p1 : string) :
  split_on sep s = [p0; p1] -> s = p0 ++ String sep p1.
Proof.
  revert p0. induction s as [| ch s IH]; intros p0 E.
  - discriminate E.
  - cbn [split_on] in E. destruct (Ascii.eqb_spec ch sep) as [-> | _].
    + injection E as <- E. rewrite (split_on_single sep s p1 E). reflexivity.
    + destruct (split_on sep s) as [| p ps] eqn:Es; [discriminate E |].
      injection E as <- ->. rewrite (IH p eq_refl). reflexivity.
Qed.

Lemma split_on_app (sep : ascii) (p q : string) :
  occurrences sep p = 0%nat ->
  split_on sep (p ++ String sep q) = p :: split_on sep q.
Proof.
  induction p as [| ch p IH]; intros H.
  - cbn. rewrite Ascii.eqb_refl. reflexivity.
  - cbn [occurrences] in H. cbn [String.append split_on].
    destruct (Ascii.eqb ch sep); [discriminate H |].
    rewrite IH by exact H. reflexivity.
Qed.

Lemma split_on_none (sep : ascii) (p : string) :
  occurrences sep p = 0%nat -> split_on sep p = [p].
Proof.
  induction p as [| ch p IH]; intros H; [reflexivity |].
  cbn [occurrences] in H. cbn [split_on].
  destruct (Ascii.eqb ch sep); [discriminate H |].
  rewrite IH by exact H. reflexivity.
Qed.

(** X5.  Whatever the built-in int accepts, parse_hhmm returns only
    minutes of the day: a returned value lies in [0, 1439], the text had
    exactly one colon, and the value is 60 h + m for the hour h in 0..23 and
    the minute m in 0..59 that int read on either side of it. *)
Theorem parse_hhmm_sound (int : string -> option Z) (value : string)
                         (minutes : Z) :
  parse_hhmm int value = inr minutes ->
  clock_minute minutes
  /\ occurrences ":" value = 1%nat
  /\ exists p0 p1 h mi,
       value = p0 ++ ":" ++ p1
       /\ int p0 = Some h /\ int p1 = Some mi
       /\ 0 <= h <= 23 /\ 0 <= mi <= 59
       /\ minutes = h * 60 + mi.
Proof.
  unfold parse_hhmm, parse_hhmm_try. intros E.
  pose proof (split_on_length ":" value) as Hlen.
  destruct (Nat.eqb_spec (List.length (split_on ":" value)) 2) as [H2 | H2];
    cbn [negb] in E; [| discriminate E].
  destruct (split_on ":" value) as [| p0 [| p1 [| p2 ps]]] eqn:Es;
    try discriminate H2.
  cbn [List.nth] in E.
  destruct (int p0) as [h |] eqn:E0; [| discriminate E].
  destruct (int p1) as [mi |] eqn:E1; [| discriminate E].
  destruct ((0 <=? h) && (h <=? 23) && ((0 <=? mi) && (mi <=? 59))) eqn:Hr;
    cbn [negb] in E; [| discriminate E].
  injection E as <-.
  apply andb_prop in Hr. destruct Hr as [Hh Hm].
  apply andb_prop in Hh. destruct Hh as [Hh1 Hh2].
  apply andb_prop in Hm. destruct Hm as [Hm1 Hm2].
  apply Z.leb_le in Hh1, Hh2, Hm1, Hm2.
  split; [unfold clock_minute; lia |].
  split; [rewrite H2 in Hlen; lia |].
  exists p0, p1, h, mi.
  split; [apply split_on_pair, Es |].
  repeat split; (assumption || lia).
Qed.

Lemma decimal_int_table :
  forallb (fun n => match decimal_int (fmt_02d n), decimal_int (str n) with
                    | Some p, Some q => (p =? n) && (q =? n)
                    | _, _ => false
                    end) (range 0 60) = true.
Proof. vm_compute. reflexivity. Qed.

Lemma decimal_int_reads (n : Z) :
  0 <= n <= 59 ->
  decimal_int (fmt_02d n) = Some n /\ decimal_int (str n) = Some n.
Proof.
  intros Hn. pose proof decimal_int_table as T.
  rewrite forallb_forall in T. specialize (T n).
  rewrite range_In in T. specialize (T ltac:(lia)).
  destruct (decimal_int (fmt_02d n)) as [p |]; [| discriminate T].
  destruct (decimal_int (str n)) as [q |]; [| discriminate T].
  apply andb_prop in T. destruct T as [Tp Tq].
  apply Z.eqb_eq in Tp, Tq. subst. split; reflexivity.
Qed.

Lemma parse_hhmm_sound_witness :
  clock_minute 545
  /\ occurrences ":" "9:05" = 1%nat
  /\ exists p0 p1 h mi,
       "9:05" = p0 ++ ":" ++ p1
       /\ decimal_int p0 = Some h /\ decimal_int p1 = Some mi
       /\ 0 <= h <= 23 /\ 0 <= mi <= 59
       /\ 545 = h * 60 + mi.
Proof.
  apply (parse_hhmm_sound decimal_int "9:05" 545). reflexivity.
Defined.

Lemma digit_not_colon (k : Z) : 0 <= k <= 9 -> Ascii.eqb (digit k) ":" = false.
Proof.
  intros Hk. apply Ascii.eqb_neq. intros E. unfold digit in E.
  apply (f_equal nat_of_ascii) in E.
  rewrite nat_ascii_embedding in E by lia. cbn in E. lia.
Qed.

Lemma two_digits_no_colon (n : Z) :
  0 <= n < 100 -> occurrences ":" (two_digits n) = 0%nat.
Proof.
  intros Hn. unfold two_digits. cbn [occurrences].
  pose proof (Z.mod_pos_bound n 10 ltac:(lia)).
  assert (0 <= n / 10 <= 9).
  { split; [apply Z.div_pos; lia |].
    apply Z.lt_succ_r, Z.div_lt_upper_bound; lia. }
  rewrite !digit_not_colon by lia. reflexivity.
Qed.

Lemma parse_hhmm_parts (int : string -> option Z) (value p0 p1 : string)
                        (h mi : Z) :
  split_on ":" value = [p0; p1] ->
  int p0 = Some h -> int p1 = Some mi ->
  0 <= h <= 23 -> 0 <= mi <= 59 ->
  parse_hhmm int value = inr (h * 60 + mi).
Proof.
  intros Es E0 E1 Hh Hm. unfold parse_hhmm, parse_hhmm_try. rewrite Es.
  cbn [List.length Nat.eqb negb List.nth]. rewrite E0, E1.
  destruct (Z.leb_spec 0 h); [| lia]. destruct (Z.leb_spec h 23); [| lia].
  destruct (Z.leb_spec 0 mi); [| lia]. destruct (Z.leb_spec mi 59); [| lia].
  reflexivity.
Qed.

Lemma split_on_hhmm (m : Z) :
  split_on ":" (hhmm m)
  = [fmt_02d ((m mod DAY_MIN) / 60); fmt_02d ((m mod DAY_MIN) mod 60)].
Proof.
  destruct (clock_parts m) as [Hh Hm].
  rewrite hhmm_two_digits, !fmt_02d_two_digits by lia.
  set (h := (m mod DAY_MIN) / 60) in *.
  set (mi := (m mod DAY_MIN) mod 60) in *.
  change (":" ++ two_digits mi) with (String ":" (two_digits mi)).
  rewrite split_on_app by (apply two_digits_no_colon; lia).
  rewrite split_on_none by (apply two_digits_no_colon; lia). reflexivity.
Qed.

(** X6.  Reading back what hhmm wrote: if int reads the two-digit fields
    the format 02d writes for 0..59, then parse_hhmm (hhmm m) returns m
    reduced modulo 1440, for every integer m. *)
Theorem parse_hhmm_hhmm (int : string -> option Z) (m : Z) :
  (forall n, 0 <= n <= 59 -> int (fmt_02d n) = Some n) ->
  parse_hhmm int (hhmm m) = inr (m mod DAY_MIN).
Proof.
  intros Hint. destruct (clock_parts m) as [Hh Hm].
  assert (Hh' : 0 <= (m mod DAY_MIN) / 60 <= 59) by lia.
  rewrite (parse_hhmm_parts int (hhmm m) _ _ _ _ (split_on_hhmm m)
             (Hint _ Hh') (Hint _ Hm) Hh Hm).
  f_equal. pose proof (Z.div_mod (m mod DAY_MIN) 60 ltac:(lia)). lia.
Qed.

Lemma parse_hhmm_hhmm_witness :
  parse_hhmm decimal_int (hhmm (-171)) = inr ((-171) mod DAY_MIN).
Proof.
  apply (parse_hhmm_hhmm decimal_int (-171)).
  intros n Hn. apply decimal_int_reads, Hn.
Defined.

Lemma str_table :
  forallb (fun n => Nat.eqb (occurrences ":" (str n)) 0) (range 0 60) = true.
Proof. vm_compute. reflexivity. Qed.

Lemma str_no_colon (n : Z) : 0 <= n <= 59 -> occurrences ":" (str n) = 0%nat.
Proof.
  intros Hn. pose proof str_table as T. rewrite forallb_forall in T.
  apply Nat.eqb_eq, T, range_In. lia.
Qed.

(** X7.  Hours and minutes need no zero padding: if int reads the plain
    decimal numerals of 0..59, then for every hour h in 0..23 and minute mi
    in 0..59 parse_hhmm accepts "h:mi" written without padding and returns
    60 h + mi. *)
Theorem parse_hhmm_unpadded (int : string -> option Z) (h mi : Z) :
  (forall n, 0 <= n <= 59 -> int (str n) = Some n) ->
  0 <= h <= 23 -> 0 <= mi <= 59 ->
  parse_hhmm int (str h ++ ":" ++ str mi) = inr (h * 60 + mi).
Proof.
  intros Hint Hh Hm.
  assert (Es : split_on ":" (str h ++ ":" ++ str mi) = [str h; str mi]).
  { change (str h ++ ":" ++ str mi) with (str h ++ String ":" (str mi)).
    rewrite split_on_app by (apply str_no_colon; lia).
    rewrite split_on_none by (apply str_no_colon; lia). reflexivity. }
  apply (parse_hhmm_parts int _ _ _ h mi Es); try assumption.
  - apply Hint. lia.
  - apply Hint. lia.
Qed.

Lemma parse_hhmm_unpadded_witness :
  parse_hhmm decimal_int (str 9 ++ ":" ++ str 5) = inr (9 * 60 + 5).
Proof.
  apply (parse_hhmm_unpadded decimal_int 9 5).
  - intros n Hn. apply decimal_int_reads, Hn.
  - lia.
  - lia.
Defined.

(** ** The schedule generator, once more *)

Lemma range_snoc (lo hi : Z) :
  lo <= hi -> range lo (hi + 1) = (range lo hi ++ [hi])%list.
Proof.
  intros H. unfold range.
  replace (Z.to_nat (hi + 1 - lo)) with (S (Z.to_nat (hi - lo))) by lia.
  rewrite seq_S, map_app. cbn [List.map Nat.add]. do 3 f_equal. lia.
Qed.

Lemma day_ids_of_rows (rounding : string) (a b : Z) (m : Q) (ds : list Z) :
  List.map day_id (List.map (row_of rounding a b m) ds) = ds.
Proof.
  rewrite map_map. cbn [row_of day_id]. apply map_id.
Qed.







Lemma rounded_within_one (rounding : string) (x : Q) :
  (x - 1 < inject_Z (rounded rounding x) < x + 1)%Q.
Proof.
  unfold rounded.
  destruct (String.eqb rounding "nearest").
  { pose proof (round_half_away_within_half x). lra. }
  destruct (String.eqb rounding "floor").
  - pose proof (Qfloor_le x) as Hle. pose proof (Qlt_floor x) as Hlt.
    rewrite inject_Z_plus in Hlt. change (inject_Z 1) with 1%Q in Hlt. lra.
  - pose proof (Qle_ceiling x) as Hle. pose proof (Qceiling_lt x) as Hlt.
    unfold Zminus in Hlt. rewrite inject_Z_plus in Hlt.
    change (inject_Z (- (1))) with (- (1))%Q in Hlt. lra.
Qed.



Lemma policies_ordered (x : Q) :
  Qfloor x <= round_half_away_from_zero x <= Qceiling x
  /\ Qceiling x <= Qfloor x + 1.
Proof.
  pose proof (round_half_away_within_half x) as [Hn1 Hn2].
  pose proof (Qfloor_le x) as Hf1. pose proof (Qlt_floor x) as Hf2.
  pose proof (Qle_ceiling x) as Hc1. pose proof (Qceiling_lt x) as Hc2.
  rewrite inject_Z_plus in Hf2. change (inject_Z 1) with 1%Q in Hf2.
  unfold Zminus in Hc2. rewrite inject_Z_plus in Hc2.
  change (inject_Z (- (1))) with (- (1))%Q in Hc2.
  assert (H1 : (inject_Z (Qfloor x)
                < inject_Z (round_half_away_from_zero x + 1))%Q)
    by (rewrite inject_Z_plus; change (inject_Z 1) with 1%Q; lra).
  assert (H2 : (inject_Z (round_half_away_from_zero x)
                < inject_Z (Qceiling x + 1))%Q)
    by (rewrite inject_Z_plus; change (inject_Z 1) with 1%Q; lra).
  assert (H3 : (inject_Z (Qceiling x) < inject_Z (Qfloor x + 2))%Q)
    by (rewrite inject_Z_plus; change (inject_Z 2) with 2%Q; lra).
  rewrite <- Zlt_Qlt in H1, H2, H3. lia.
Qed.





(** ** The command-line run *)

Lemma round_Z (z : Z) : round (inject_Z z) = z.
Proof.
  unfold round. rewrite Qfloor_Z.
  destruct (Qcompare_spec (inject_Z z - inject_Z z) (1 # 2)) as [E | E | E];
    [lra | reflexivity | lra].
Qed.

#[export] Instance round_comp : Proper (Qeq ==> eq) round.
Proof.
  intros x y E. unfold round.
  rewrite (Qfloor_comp x y E).
  assert (Er : (x - inject_Z (Qfloor y) == y - inject_Z (Qfloor y))%Q)
    by (rewrite E; reflexivity).
  rewrite (Qcompare_comp _ _ Er (1 # 2) (1 # 2) (Qeq_refl _)). reflexivity.
Qed.

Lemma fmod_Z (z n : Z) : n <> 0 -> (fmod (inject_Z z) n == inject_Z (z mod n))%Q.
Proof.
  intros Hn. unfold fmod. rewrite <- Zdiv_Qdiv, (Z.mod_eq z n Hn).
  unfold Zminus. rewrite inject_Z_plus, inject_Z_opp, inject_Z_mult. ring.
Qed.

Lemma row_of_day_1 (rounding : string) (a b : Z) (m : Q) :
  row_of rounding a b m 1 = mkScheduleRow 1 a b.
Proof.
  unfold row_of, raw_start, raw_end. f_equal.
  - assert (E : (inject_Z a + offset 1 m == inject_Z a)%Q)
      by (rewrite offset_day_1; ring).
    rewrite E. apply rounded_Z.
  - assert (E : (inject_Z b - offset 1 m == inject_Z b)%Q)
      by (rewrite offset_day_1; ring).
    rewrite E. apply rounded_Z.
Qed.

Lemma even_half (L : Z) : Z.even L = true -> L = 2 * (L / 2).
Proof.
  intros H. pose proof (Z.div_mod L 2 ltac:(lia)) as Hdm.
  rewrite (Zmod_even L), H in Hdm. lia.
Qed.







(** X17.  What write_csv hands over: the header and then one record per
    row, in order, each with three fields.  Every time field is five
    characters long, and parse_hhmm reads it back as the stored minute
    reduced modulo 1440, provided int reads the two-digit fields that the
    format 02d writes. *)
Theorem write_csv_records (int : string -> option Z)
                          (rows : list ScheduleRow) :
  (forall n, 0 <= n <= 59 -> int (fmt_02d n) = Some n) ->
  List.length (write_csv rows) = S (List.length rows)
  /\ List.hd [] (write_csv rows) = ["id"; "start"; "end"]
  /\ forall i r,
       nth_error rows i = Some r ->
       exists s e,
         nth_error (write_csv rows) (S i) = Some [str (day_id r); s; e]
         /\ String.length s = 5%nat /\ String.length e = 5%nat
         /\ parse_hhmm int s = inr (start_min r mod DAY_MIN)
         /\ parse_hhmm int e = inr (end_min r mod DAY_MIN).
Proof.
  intros Hint. unfold write_csv.
  split; [cbn [List.length]; rewrite length_map; reflexivity |].
  split; [reflexivity |].
  intros i r Hnth. exists (start_str r), (end_str r).
  cbn [nth_error]. rewrite nth_error_map, Hnth. cbn [option_map].
  split; [reflexivity |].
  unfold start_str, end_str.
  split; [apply hhmm_length |]. split; [apply hhmm_length |].
  assert (Hread : forall x, parse_hhmm int (hhmm x) = inr (x mod DAY_MIN)).
  { intros x. destruct (clock_parts x) as [Hh Hm].
    assert (Hh' : 0 <= (x mod DAY_MIN) / 60 <= 59) by lia.
    rewrite (parse_hhmm_parts int (hhmm x) _ _ _ _ (split_on_hhmm x)
               (Hint _ Hh') (Hint _ Hm) Hh Hm).
    f_equal. pose proof (Z.div_mod (x mod DAY_MIN) 60 ltac:(lia)). lia. }
  split; apply Hread.
Qed.

Lemma write_csv_records_witness :
  List.length (write_csv [mkScheduleRow 2 1270 (-171)]) = 2%nat
  /\ List.hd [] (write_csv [mkScheduleRow 2 1270 (-171)])
     = ["id"; "start"; "end"]
  /\ forall i r,
       nth_error [mkScheduleRow 2 1270 (-171)] i = Some r ->
       exists s e,
         nth_error (write_csv [mkScheduleRow 2 1270 (-171)]) (S i)
         = Some [str (day_id r); s; e]
         /\ String.length s = 5%nat /\ String.length e = 5%nat
         /\ parse_hhmm decimal_int s = inr (start_min r mod DAY_MIN)
         /\ parse_hhmm decimal_int e = inr (end_min r mod DAY_MIN).
Proof.
  apply (write_csv_records decimal_int [mkScheduleRow 2 1270 (-171)]).
  intros n Hn. apply decimal_int_reads, Hn.
Defined.
